(** * Vortexje: trailing-edge geometry and wake emission of a lifting surface

    A shallow embedding of [LiftingSurface] (lifting-surface.cpp) and of
    [DummyBoundaryLayer] (boundary-layers/dummy-boundary-layer.cpp).

    Conventions of the embedding:
    - the functions are written over the operations of Eigen that the sources
      call ([+], [-], [*], [dot], [cross], [normalize] on [Vector3d]).  Eigen
      is not part of the sources: the operations are an interface ([Ops]), and
      what is proved of a function holds for every implementation of it;
    - [binary64] implements the interface with IEEE 754 double precision, in
      the ways in which versions of Eigen evaluate [dot] and [normalize]; the
      functions run on it;
    - a C++ [int] is an integer ([Z]); conversions to [int] and [int]
      arithmetic are written with their 32-bit wrap-around ([to_int]);
    - an access that the C++ leaves undefined (a matrix coefficient or a
      vector element out of range) yields [None]; the functions that can
      reach such an access return an [option]. *)

From Stdlib Require Import ZArith List Bool Lia Floats.
Import ListNotations.

(** ** Undefined behaviour as an error monad *)

Definition bind {A B : Type} (c : option A) (k : A -> option B) : option B :=
  match c with
  | Some a => k a
  | None => None
  end.

Notation "x <- c ;; k" := (bind c (fun x => k))
  (at level 61, c at next level, right associativity).

(** ** Eigen: fixed-size vectors and dynamic matrices *)

Module Eigen.

(** [Eigen::Vector3d]: three coefficients of type [double]. *)
Record Vector3d (double : Type) : Type :=
  Vec { vx : double; vy : double; vz : double }.

Arguments Vec {double} vx vy vz.
Arguments vx {double} v.
Arguments vy {double} v.
Arguments vz {double} v.

(** The operations on [double] and [Vector3d] that the sources use: the
    literal [0.0], the unary minus of a [double], and of Eigen [a + b],
    [a - b], [-a], [k * a], [a.dot(b)], [a.cross(b)], [a.norm()] and
    [a.normalize()] (the normalized vector: the sources normalize in place). *)
Class Ops (double : Type) : Type := {
  zero : double;
  neg : double -> double;
  add : Vector3d double -> Vector3d double -> Vector3d double;
  sub : Vector3d double -> Vector3d double -> Vector3d double;
  opp : Vector3d double -> Vector3d double;
  scale : double -> Vector3d double -> Vector3d double;
  dot : Vector3d double -> Vector3d double -> double;
  cross : Vector3d double -> Vector3d double -> Vector3d double;
  norm : Vector3d double -> double;
  normalize : Vector3d double -> Vector3d double
}.

(** [Eigen::Matrix<A, Dynamic, Dynamic>]: the dimensions and the
    coefficients in Eigen's default column-major storage order. *)
Record Matrix (A : Type) : Type :=
  Mat { rows : Z; cols : Z; coeffs : list A }.

Arguments Mat {A} rows cols coeffs.
Arguments rows {A} m.
Arguments cols {A} m.
Arguments coeffs {A} m.

Definition MatrixXi : Type := Matrix Z.
Definition MatrixXd (double : Type) : Type := Matrix double.

Local Open Scope Z_scope.

(** [m(r, c)]: defined for [0 <= r < rows] and [0 <= c < cols]. *)
Definition coeff {A : Type} (m : Matrix A) (r c : Z) : option A :=
  if (0 <=? r) && (r <? rows m) && (0 <=? c) && (c <? cols m)
  then nth_error (coeffs m) (Z.to_nat (r + c * rows m))
  else None.

End Eigen.

Import Eigen.

Declare Scope vec_scope.
Delimit Scope vec_scope with V.
Bind Scope vec_scope with Vector3d.
Infix "+" := add : vec_scope.
Infix "-" := sub : vec_scope.
Notation "- a" := (opp a) : vec_scope.
Infix "*" := scale : vec_scope.

(** ** Eigen in IEEE 754 double precision *)

Module Binary64.

Local Open Scope float_scope.

(** The order in which [dot] adds the three products: Eigen's reduction of a
    fixed-size vector adds the first two first, or the last two first, by its
    version and its unrolling. *)
Inductive Summation : Type :=
  | FirstPair
  | LastPair.

(** How [normalize] divides: each coefficient by the norm; each coefficient
    times the reciprocal of the norm (Eigen up to 3.2); or each coefficient by
    the norm when the squared norm is positive, the vector being left as it is
    otherwise (Eigen from 3.3). *)
Inductive Division : Type :=
  | ByNorm
  | ByReciprocal
  | ByNormIfPositive.

Definition sum3 (o : Summation) (a b c : float) : float :=
  match o with
  | FirstPair => (a + b) + c
  | LastPair => a + (b + c)
  end.

Definition f_add (a b : Vector3d float) : Vector3d float :=
  Vec (vx a + vx b) (vy a + vy b) (vz a + vz b).

Definition f_sub (a b : Vector3d float) : Vector3d float :=
  Vec (vx a - vx b) (vy a - vy b) (vz a - vz b).

Definition f_opp (a : Vector3d float) : Vector3d float :=
  Vec (- vx a) (- vy a) (- vz a).

Definition f_scale (k : float) (a : Vector3d float) : Vector3d float :=
  Vec (k * vx a) (k * vy a) (k * vz a).

Definition f_div (a : Vector3d float) (k : float) : Vector3d float :=
  Vec (vx a / k) (vy a / k) (vz a / k).

Definition f_dot (o : Summation) (a b : Vector3d float) : float :=
  sum3 o (vx a * vx b) (vy a * vy b) (vz a * vz b).

Definition f_cross (a b : Vector3d float) : Vector3d float :=
  Vec (vy a * vz b - vz a * vy b)
      (vz a * vx b - vx a * vz b)
      (vx a * vy b - vy a * vx b).

Definition f_norm (o : Summation) (a : Vector3d float) : float :=
  sqrt (f_dot o a a).

Definition f_normalize (o : Summation) (d : Division) (a : Vector3d float)
  : Vector3d float :=
  match d with
  | ByNorm => f_div a (f_norm o a)
  | ByReciprocal => f_scale (1 / f_norm o a) a
  | ByNormIfPositive =>
      let z := f_dot o a a in
      if 0 <? z then f_div a (sqrt z) else a
  end.

Definition binary64 (o : Summation) (d : Division) : Ops float := {|
  zero := 0;
  neg := PrimFloat.opp;
  add := f_add;
  sub := f_sub;
  opp := f_opp;
  scale := f_scale;
  dot := f_dot o;
  cross := f_cross;
  norm := f_norm o;
  normalize := f_normalize o d
|}.

(** Every way of evaluating [dot] and [normalize]. *)
Definition variants : list (Ops float) :=
  [ binary64 FirstPair ByNorm; binary64 FirstPair ByReciprocal;
    binary64 FirstPair ByNormIfPositive; binary64 LastPair ByNorm;
    binary64 LastPair ByReciprocal; binary64 LastPair ByNormIfPositive ].

End Binary64.

Import Binary64.

Local Open Scope Z_scope.

(** ** Machine integers *)

(** The value of a 64-bit [Index], or of an [int] expression, as an [int]. *)
Definition to_int (n : Z) : Z := (n + 2 ^ 31) mod 2 ^ 32 - 2 ^ 31.

(** ** The lifting surface *)

(** Modelled from the spec: the class declarations (surface.hpp,
    lifting-surface.hpp) are missing from the sources.  The fields are those
    the member functions use ([nodes] and the four topology grids); the mesh
    store's panels ([panel_nodes], the node ids of each panel) are the part of
    the object that the member functions below never read. *)
Record LiftingSurface (double : Type) : Type := {
  nodes : list (Vector3d double);
  panel_nodes : list (list Z);
  upper_nodes : MatrixXi;
  lower_nodes : MatrixXi;
  upper_panels : MatrixXi;
  lower_panels : MatrixXi
}.

Arguments nodes {double} l.
Arguments panel_nodes {double} l.
Arguments upper_nodes {double} l.
Arguments lower_nodes {double} l.
Arguments upper_panels {double} l.
Arguments lower_panels {double} l.

(** Modelled from the spec: parameters.hpp is missing from the sources; the
    one parameter read here is the flag "follow bisector for wake emission". *)
Record Parameters : Type := {
  wake_emission_follow_bisector : bool
}.

Section Surface.

Context {double : Type} {E : Ops double}.

(** [nodes[id]]: an element of a [std::vector]. *)
Definition node (s : LiftingSurface double) (id : Z)
  : option (Vector3d double) :=
  if id <? 0 then None else nth_error (nodes s) (Z.to_nat id).

Definition n_chordwise_nodes (s : LiftingSurface double) : Z :=
  to_int (rows (upper_nodes s)).

Definition n_chordwise_panels (s : LiftingSurface double) : Z :=
  to_int (rows (upper_panels s)).

Definition n_spanwise_nodes (s : LiftingSurface double) : Z :=
  to_int (cols (upper_nodes s)).

Definition n_spanwise_panels (s : LiftingSurface double) : Z :=
  to_int (cols (upper_panels s)).

Definition trailing_edge_node (s : LiftingSurface double) (index : Z)
  : option Z :=
  coeff (upper_nodes s) (rows (upper_nodes s) - 1) index.

Definition trailing_edge_upper_panel (s : LiftingSurface double) (index : Z)
  : option Z :=
  coeff (upper_panels s) (rows (upper_panels s) - 1) index.

Definition trailing_edge_lower_panel (s : LiftingSurface double) (index : Z)
  : option Z :=
  coeff (lower_panels s) (rows (lower_panels s) - 1) index.

(** The local [upper] of [trailing_edge_bisector], before its normalization. *)
Definition upper_tangent (s : LiftingSurface double) (node_index : Z)
  : option (Vector3d double) :=
  i1 <- coeff (upper_nodes s) (rows (upper_nodes s) - 1) node_index ;;
  p1 <- node s i1 ;;
  i2 <- coeff (upper_nodes s) (rows (upper_nodes s) - 2) node_index ;;
  p2 <- node s i2 ;;
  Some (p1 - p2)%V.

(** The local [lower] of [trailing_edge_bisector], before its normalization. *)
Definition lower_tangent (s : LiftingSurface double) (node_index : Z)
  : option (Vector3d double) :=
  i1 <- coeff (lower_nodes s) (rows (lower_nodes s) - 1) node_index ;;
  p1 <- node s i1 ;;
  i2 <- coeff (lower_nodes s) (rows (lower_nodes s) - 2) node_index ;;
  p2 <- node s i2 ;;
  Some (p1 - p2)%V.

Definition trailing_edge_bisector (s : LiftingSurface double) (node_index : Z)
  : option (Vector3d double) :=
  upper <- upper_tangent s node_index ;;
  lower <- lower_tangent s node_index ;;
  let upper := normalize upper in
  let lower := normalize lower in
  Some (normalize (upper + lower)%V).

(** The locals [prev_node] and [next_node] of [wake_emission_velocity]. *)
Definition prev_node (s : LiftingSurface double) (node_index : Z)
  : option Z :=
  if 0 <? node_index
  then trailing_edge_node s (to_int (node_index - 1))
  else trailing_edge_node s node_index.

Definition next_node (s : LiftingSurface double) (node_index : Z)
  : option Z :=
  if node_index <? to_int (n_spanwise_nodes s - 1)
  then trailing_edge_node s (to_int (node_index + 1))
  else trailing_edge_node s node_index.

(** The local [span_direction] of [wake_emission_velocity]. *)
Definition span_direction (s : LiftingSurface double) (prev next : Z)
  : option (Vector3d double) :=
  pn <- node s next ;;
  pp <- node s prev ;;
  Some (pn - pp)%V.

Definition wake_emission_velocity (P : Parameters) (s : LiftingSurface double)
    (apparent_velocity : Vector3d double) (node_index : Z)
  : option (Vector3d double) :=
  if wake_emission_follow_bisector P && (1 <? n_chordwise_nodes s) then
    prev <- prev_node s node_index ;;
    next <- next_node s node_index ;;
    bisector <- trailing_edge_bisector s node_index ;;
    if negb (prev =? next) then
      span <- span_direction s prev next ;;
      let wake_normal := normalize (cross span bisector) in
      Some (- (apparent_velocity
               - dot apparent_velocity wake_normal * wake_normal))%V
    else
      Some (neg (dot apparent_velocity bisector) * bisector)%V
  else
    Some (- apparent_velocity)%V.

End Surface.

(** ** The boundary-layer interface and its do-nothing implementation *)

(** Modelled from the spec: the abstract class (boundary-layer.hpp) is missing
    from the sources; its three operations are those that
    dummy-boundary-layer.cpp implements.  [recalculate] is the one operation
    that is not [const]: it maps the object to the object after the call. *)
Class BoundaryLayer (double : Type) (T : Type) : Type := {
  recalculate : T -> MatrixXd double -> T;
  blowing_velocity : T -> Z -> double;
  friction : T -> Z -> Vector3d double
}.

Module DummyBoundaryLayer.
Section Members.

Context {double : Type} {E : Ops double}.

(** The data members of the object, whatever they are: no member function of
    dummy-boundary-layer.cpp names one. *)
Variable t : Type.

Definition recalculate (self : t) (surface_velocities : MatrixXd double) : t :=
  self.

Definition blowing_velocity (self : t) (panel : Z) : double := zero.

Definition friction (self : t) (panel : Z) : Vector3d double :=
  Vec zero zero zero.

Definition boundary_layer : BoundaryLayer double t :=
  Build_BoundaryLayer double t recalculate blowing_velocity friction.

End Members.

Arguments recalculate {double t} self surface_velocities.
Arguments blowing_velocity {double E t} self panel.
Arguments friction {double E t} self panel.

End DummyBoundaryLayer.

(** ** Member functions as state transformers *)

(** What a call can see and change: the object and the process-wide
    parameters. *)
Record World (double : Type) : Type := {
  surface : LiftingSurface double;
  parameters : Parameters
}.

Arguments surface {double} w.
Arguments parameters {double} w.

Section Calls.

Context {double : Type} {E : Ops double}.

(** A call maps the world before it to its result and the world after it, or
    is undefined. *)
Definition Call (A : Type) : Type := World double -> option (A * World double).

Definition ret {A : Type} (a : A) : Call A := fun w => Some (a, w).

Definition and_then {A B : Type} (c : Call A) (k : A -> Call B) : Call B :=
  fun w =>
    match c w with
    | Some (a, w') => k a w'
    | None => None
    end.

(** Reading a member or a global. *)
Definition read {A : Type} (f : World double -> A) : Call A :=
  fun w => Some (f w, w).

(** Assigning to the members and the globals. *)
Definition assign (w' : World double) : Call unit :=
  fun _ => Some (tt, w').

(** An access that may be undefined. *)
Definition access {A : Type} (o : option A) : Call A :=
  fun w =>
    match o with
    | Some a => Some (a, w)
    | None => None
    end.

Notation "x <~ c ;; k" := (and_then c (fun x => k))
  (at level 61, c at next level, right associativity).

Definition call_n_chordwise_nodes : Call Z :=
  m <~ read (fun w => upper_nodes (surface w)) ;;
  ret (to_int (rows m)).

Definition call_n_chordwise_panels : Call Z :=
  m <~ read (fun w => upper_panels (surface w)) ;;
  ret (to_int (rows m)).

Definition call_n_spanwise_nodes : Call Z :=
  m <~ read (fun w => upper_nodes (surface w)) ;;
  ret (to_int (cols m)).

Definition call_n_spanwise_panels : Call Z :=
  m <~ read (fun w => upper_panels (surface w)) ;;
  ret (to_int (cols m)).

Definition call_trailing_edge_node (index : Z) : Call Z :=
  m <~ read (fun w => upper_nodes (surface w)) ;;
  access (coeff m (rows m - 1) index).

Definition call_trailing_edge_upper_panel (index : Z) : Call Z :=
  m <~ read (fun w => upper_panels (surface w)) ;;
  access (coeff m (rows m - 1) index).

Definition call_trailing_edge_lower_panel (index : Z) : Call Z :=
  m <~ read (fun w => lower_panels (surface w)) ;;
  access (coeff m (rows m - 1) index).

(** [nodes[id]]. *)
Definition call_node (id : Z) : Call (Vector3d double) :=
  ns <~ read (fun w => nodes (surface w)) ;;
  access (if id <? 0 then None else nth_error ns (Z.to_nat id)).

Definition call_trailing_edge_bisector (node_index : Z)
  : Call (Vector3d double) :=
  un <~ read (fun w => upper_nodes (surface w)) ;;
  i1 <~ access (coeff un (rows un - 1) node_index) ;;
  p1 <~ call_node i1 ;;
  i2 <~ access (coeff un (rows un - 2) node_index) ;;
  p2 <~ call_node i2 ;;
  let upper := (p1 - p2)%V in
  ln <~ read (fun w => lower_nodes (surface w)) ;;
  j1 <~ access (coeff ln (rows ln - 1) node_index) ;;
  q1 <~ call_node j1 ;;
  j2 <~ access (coeff ln (rows ln - 2) node_index) ;;
  q2 <~ call_node j2 ;;
  let lower := (q1 - q2)%V in
  let upper := normalize upper in
  let lower := normalize lower in
  let trailing_edge_bisector := (upper + lower)%V in
  ret (normalize trailing_edge_bisector).

Definition call_wake_emission_velocity (apparent_velocity : Vector3d double)
    (node_index : Z) : Call (Vector3d double) :=
  flag <~ read (fun w => wake_emission_follow_bisector (parameters w)) ;;
  follow <~ (if flag
             then n <~ call_n_chordwise_nodes ;; ret (1 <? n)
             else ret false) ;;
  if follow then
    prev <~ (if 0 <? node_index
             then call_trailing_edge_node (to_int (node_index - 1))
             else call_trailing_edge_node node_index) ;;
    n <~ call_n_spanwise_nodes ;;
    next <~ (if node_index <? to_int (n - 1)
             then call_trailing_edge_node (to_int (node_index + 1))
             else call_trailing_edge_node node_index) ;;
    bisector <~ call_trailing_edge_bisector node_index ;;
    if negb (prev =? next) then
      pn <~ call_node next ;;
      pp <~ call_node prev ;;
      let span := (pn - pp)%V in
      let wake_normal := normalize (cross span bisector) in
      ret (- (apparent_velocity
              - dot apparent_velocity wake_normal * wake_normal))%V
    else
      ret (neg (dot apparent_velocity bisector) * bisector)%V
  else
    ret (- apparent_velocity)%V.

(** A call that returns what the function [f] of the world returns and leaves
    the world [w1] as it was, where [f] returns in [w1] what it returns in
    [w2]. *)
Definition pure_call {A : Type} (c : Call A) (f : World double -> option A)
    (w1 w2 : World double) : Prop :=
  c w1 = option_map (fun a => (a, w1)) (f w1) /\ f w1 = f w2.

(** Two worlds with the same node positions, the same four topology grids and
    the same flag. *)
Definition same_inputs (w1 w2 : World double) : Prop :=
  nodes (surface w1) = nodes (surface w2) /\
  upper_nodes (surface w1) = upper_nodes (surface w2) /\
  lower_nodes (surface w1) = lower_nodes (surface w2) /\
  upper_panels (surface w1) = upper_panels (surface w2) /\
  lower_panels (surface w1) = lower_panels (surface w2) /\
  wake_emission_follow_bisector (parameters w1)
  = wake_emission_follow_bisector (parameters w2).

End Calls.

(** ** Well-formed surfaces *)

(** A grid whose dimensions fit an [int] and whose storage holds
    [rows * cols] coefficients. *)
Definition wf_grid (m : MatrixXi) : bool :=
  (0 <=? rows m) && (rows m <? 2 ^ 31) &&
  (0 <=? cols m) && (cols m <? 2 ^ 31) &&
  (Z.of_nat (length (coeffs m)) =? rows m * cols m).

Section WellFormed.

Context {double : Type} {E : Ops double}.

(** Every id of the grid is the index of a node. *)
Definition node_ids_valid (s : LiftingSurface double) (m : MatrixXi) : bool :=
  forallb (fun id => (0 <=? id) && (id <? Z.of_nat (length (nodes s))))
          (coeffs m).

(** The two node grids are well formed, have the same dimensions, and hold
    ids of nodes. *)
Definition wf_surface (s : LiftingSurface double) : bool :=
  wf_grid (upper_nodes s) && wf_grid (lower_nodes s) &&
  (rows (lower_nodes s) =? rows (upper_nodes s)) &&
  (cols (lower_nodes s) =? cols (upper_nodes s)) &&
  node_ids_valid s (upper_nodes s) && node_ids_valid s (lower_nodes s).

(** A trailing-edge node index within the grid. *)
Definition valid_index (s : LiftingSurface double) (i : Z) : Prop :=
  0 <= i < n_spanwise_nodes s.

(** Mode A of the wake emission: the flag is set and there are at least two
    chordwise nodes. *)
Definition follows_bisector (P : Parameters) (s : LiftingSurface double)
  : Prop :=
  wake_emission_follow_bisector P = true /\ 1 < n_chordwise_nodes s.

(** The ids of the trailing edge are pairwise distinct. *)
Definition distinct_trailing_edge (s : LiftingSurface double) : Prop :=
  forall j k : Z, valid_index s j -> valid_index s k ->
    trailing_edge_node s j = trailing_edge_node s k -> j = k.

(** ** The emission as a map of the apparent velocity *)

(** The three ways in which [wake_emission_velocity] maps the apparent
    velocity to its result: negation; negated projection onto the line of a
    bisector; negated projection onto the plane of a wake normal. *)
Inductive Emission : Type :=
  | Direct
  | AlongBisector (bisector : Vector3d double)
  | InWakePlane (wake_normal : Vector3d double).

Definition emit (e : Emission) (apparent_velocity : Vector3d double)
  : Vector3d double :=
  match e with
  | Direct => (- apparent_velocity)%V
  | AlongBisector bisector =>
      (neg (dot apparent_velocity bisector) * bisector)%V
  | InWakePlane wake_normal =>
      (- (apparent_velocity
          - dot apparent_velocity wake_normal * wake_normal))%V
  end.

(** The part of [wake_emission_velocity] that does not depend on the apparent
    velocity: which of the three maps is taken, and with which vector. *)
Definition emission (P : Parameters) (s : LiftingSurface double)
    (node_index : Z) : option Emission :=
  if wake_emission_follow_bisector P && (1 <? n_chordwise_nodes s) then
    prev <- prev_node s node_index ;;
    next <- next_node s node_index ;;
    bisector <- trailing_edge_bisector s node_index ;;
    if negb (prev =? next) then
      span <- span_direction s prev next ;;
      Some (InWakePlane (normalize (cross span bisector)))
    else
      Some (AlongBisector bisector)
  else
    Some Direct.

(** ** Changes of the frame of the mesh *)

(** The surface with every node moved by [t]. *)
Definition translate (t : Vector3d double) (s : LiftingSurface double)
  : LiftingSurface double := {|
  nodes := map (fun p => (p + t)%V) (nodes s);
  panel_nodes := panel_nodes s;
  upper_nodes := upper_nodes s;
  lower_nodes := lower_nodes s;
  upper_panels := upper_panels s;
  lower_panels := lower_panels s
|}.

(** The differences of the positions of the nodes are the same after the move
    by [t] as before, as they are when no sum [p + t] is rounded. *)
Definition differences_kept (t : Vector3d double) (s : LiftingSurface double)
  : Prop :=
  forall p q : Vector3d double, In p (nodes s) -> In q (nodes s) ->
    ((p + t) - (q + t))%V = (p - q)%V.

(** The surface with its upper and lower node grids exchanged. *)
Definition swap_halves (s : LiftingSurface double) : LiftingSurface double := {|
  nodes := nodes s;
  panel_nodes := panel_nodes s;
  upper_nodes := lower_nodes s;
  lower_nodes := upper_nodes s;
  upper_panels := lower_panels s;
  lower_panels := upper_panels s
|}.

(** ** Laws of an arithmetic *)

(** The sum of two vectors does not depend on their order. *)
Definition add_commutative : Prop :=
  forall a b : Vector3d double, (a + b)%V = (b + a)%V.

(** A vector and its opposite have the same norm. *)
Definition norm_even : Prop :=
  forall a : Vector3d double, norm (- a)%V = norm a.

End WellFormed.

Arguments Emission double : clear implicits.
Arguments add_commutative {double} E.
Arguments norm_even {double} E.

(** ** Sample meshes in double precision *)

Module Samples.

Local Open Scope float_scope.

(** A flat rectangular surface of 2 chordwise rows and 3 spanwise stations:
    the chord along x, the span along y, the upper and lower halves
    coinciding.  Node [k] and node [3 + k] are the leading and the trailing
    node of station [k]. *)
Definition flat_nodes : list (Vector3d float) :=
  [Vec 0 0 0; Vec 0 1 0; Vec 0 2 0; Vec 1 0 0; Vec 1 1 0; Vec 1 2 0].

Definition flat_surface : LiftingSurface float := {|
  nodes := flat_nodes;
  panel_nodes := [[0; 3; 4; 1]; [1; 4; 5; 2]]%Z;
  upper_nodes := Mat 2 3 [0; 3; 1; 4; 2; 5]%Z;
  lower_nodes := Mat 2 3 [0; 3; 1; 4; 2; 5]%Z;
  upper_panels := Mat 1 2 [0; 1]%Z;
  lower_panels := Mat 1 2 [0; 1]%Z
|}.

(** The same surface with a different list of panels. *)
Definition flat_surface_repanelled : LiftingSurface float := {|
  nodes := flat_nodes;
  panel_nodes := [];
  upper_nodes := Mat 2 3 [0; 3; 1; 4; 2; 5]%Z;
  lower_nodes := Mat 2 3 [0; 3; 1; 4; 2; 5]%Z;
  upper_panels := Mat 1 2 [0; 1]%Z;
  lower_panels := Mat 1 2 [0; 1]%Z
|}.

(** A surface with a single spanwise station, of two nodes, the chord running
    from [leading] to the origin; the two halves coincide. *)
Definition strip (leading : Vector3d float) : LiftingSurface float := {|
  nodes := [leading; Vec 0 0 0];
  panel_nodes := [];
  upper_nodes := Mat 2 1 [0; 1]%Z;
  lower_nodes := Mat 2 1 [0; 1]%Z;
  upper_panels := Mat 1 0 [];
  lower_panels := Mat 1 0 []
|}.

Definition strip_surface : LiftingSurface float := strip (Vec (-1) 0 0).

(** A single station whose upper half arrives along x and whose lower half
    arrives along y: a trailing edge with a right angle. *)
Definition corner_surface : LiftingSurface float := {|
  nodes := [Vec (-1) 0 0; Vec 0 0 0; Vec 0 (-1) 0];
  panel_nodes := [];
  upper_nodes := Mat 2 1 [0; 1]%Z;
  lower_nodes := Mat 2 1 [2; 1]%Z;
  upper_panels := Mat 1 0 [];
  lower_panels := Mat 1 0 []
|}.

(** Two stations, the chord along x, the span along the diagonal of the
    three axes. *)
Definition skew_surface : LiftingSurface float := {|
  nodes := [Vec (-1) 0 0; Vec 0 0 0; Vec (-5) (-4) (-4); Vec (-4) (-4) (-4)];
  panel_nodes := [[0; 1; 3; 2]]%Z;
  upper_nodes := Mat 2 2 [0; 1; 2; 3]%Z;
  lower_nodes := Mat 2 2 [0; 1; 2; 3]%Z;
  upper_panels := Mat 1 1 [0]%Z;
  lower_panels := Mat 1 1 [0]%Z
|}.

(** A surface with a single chordwise row. *)
Definition line_surface : LiftingSurface float := {|
  nodes := [Vec 0 0 0; Vec 0 1 0];
  panel_nodes := [];
  upper_nodes := Mat 1 2 [0; 1]%Z;
  lower_nodes := Mat 1 2 [0; 1]%Z;
  upper_panels := Mat 0 1 [];
  lower_panels := Mat 0 1 []
|}.

Definition bisector_on : Parameters :=
  {| wake_emission_follow_bisector := true |}.

Definition bisector_off : Parameters :=
  {| wake_emission_follow_bisector := false |}.

(** Two apparent velocities. *)
Definition downwash : Vector3d float := Vec 0 0 (-5).

Definition probe : Vector3d float := Vec 2 0 (-5).

(** Double precision as Eigen 3.3 and later compute. *)
Definition eigen33 : Ops float := binary64 LastPair ByNormIfPositive.

End Samples.

Import Samples.

(** ** Machine integers and grid accesses *)

Ltac bind_inv H :=
  match type of H with
  | bind ?c _ = Some _ =>
      let E := fresh "E" in
      destruct c eqn:E; simpl in H; [| discriminate H]
  end.

Lemma to_int_range (n : Z) : - 2 ^ 31 <= to_int n < 2 ^ 31.
Proof.
  unfold to_int.
  pose proof (Z.mod_pos_bound (n + 2 ^ 31) (2 ^ 32) ltac:(lia)). lia.
Qed.

Lemma to_int_small (n : Z) : - 2 ^ 31 <= n < 2 ^ 31 -> to_int n = n.
Proof.
  intros H. unfold to_int. rewrite Z.mod_small by lia. lia.
Qed.

Lemma wf_grid_inv (m : MatrixXi) :
  wf_grid m = true ->
  0 <= rows m < 2 ^ 31 /\ 0 <= cols m < 2 ^ 31 /\
  Z.of_nat (length (coeffs m)) = rows m * cols m.
Proof. unfold wf_grid. intros H. lia. Qed.

Lemma coeff_defined (m : MatrixXi) (r c : Z) :
  wf_grid m = true -> 0 <= r < rows m -> 0 <= c < cols m ->
  exists a, coeff m r c = Some a /\
            nth_error (coeffs m) (Z.to_nat (r + c * rows m)) = Some a /\
            In a (coeffs m).
Proof.
  intros Hwf Hr Hc. apply wf_grid_inv in Hwf as (_ & _ & Hlen).
  assert (Hlt : (Z.to_nat (r + c * rows m) < length (coeffs m))%nat) by nia.
  destruct (nth_error (coeffs m) (Z.to_nat (r + c * rows m))) as [a |] eqn:Ea.
  - exists a. unfold coeff.
    replace ((0 <=? r) && (r <? rows m) && (0 <=? c) && (c <? cols m))
      with true by lia.
    repeat split; try assumption. eapply nth_error_In; eassumption.
  - apply nth_error_None in Ea. lia.
Qed.

Lemma coeff_inv (m : MatrixXi) (r c a : Z) :
  coeff m r c = Some a ->
  0 <= r < rows m /\ 0 <= c < cols m /\ In a (coeffs m).
Proof.
  unfold coeff.
  destruct ((0 <=? r) && (r <? rows m) && (0 <=? c) && (c <? cols m)) eqn:Eb;
    [| discriminate].
  intros H. apply nth_error_In in H. repeat split; try lia. exact H.
Qed.

Section Accesses.

Context {double : Type} {E : Ops double}.

Lemma node_defined (s : LiftingSurface double) (m : MatrixXi) (id : Z) :
  node_ids_valid s m = true -> In id (coeffs m) ->
  exists p, node s id = Some p.
Proof.
  unfold node_ids_valid. rewrite forallb_forall. intros H Hin.
  specialize (H id Hin). unfold node.
  replace (id <? 0) with false by lia.
  destruct (nth_error (nodes s) (Z.to_nat id)) as [p |] eqn:Ep.
  - now exists p.
  - apply nth_error_None in Ep. lia.
Qed.

Lemma wf_surface_inv (s : LiftingSurface double) :
  wf_surface s = true ->
  wf_grid (upper_nodes s) = true /\ wf_grid (lower_nodes s) = true /\
  rows (lower_nodes s) = rows (upper_nodes s) /\
  cols (lower_nodes s) = cols (upper_nodes s) /\
  node_ids_valid s (upper_nodes s) = true /\
  node_ids_valid s (lower_nodes s) = true.
Proof.
  unfold wf_surface. rewrite !andb_true_iff, !Z.eqb_eq. tauto.
Qed.

(** On a well-formed grid the counts are the dimensions. *)
Lemma counts_of_wf (s : LiftingSurface double) :
  wf_grid (upper_nodes s) = true ->
  n_chordwise_nodes s = rows (upper_nodes s) /\
  n_spanwise_nodes s = cols (upper_nodes s).
Proof.
  intros H. apply wf_grid_inv in H as (Hr & Hc & _).
  unfold n_chordwise_nodes, n_spanwise_nodes.
  rewrite !to_int_small by lia. split; reflexivity.
Qed.

Lemma trailing_edge_node_defined (s : LiftingSurface double) (i : Z) :
  wf_grid (upper_nodes s) = true -> 1 <= n_chordwise_nodes s ->
  valid_index s i ->
  exists id, trailing_edge_node s i = Some id /\ In id (coeffs (upper_nodes s)).
Proof.
  intros Hwf Hr Hi. destruct (counts_of_wf s Hwf) as [Er Ec].
  unfold valid_index in Hi. rewrite Ec in Hi. rewrite Er in Hr.
  destruct (coeff_defined (upper_nodes s) (rows (upper_nodes s) - 1) i Hwf)
    as (id & Eid & _ & Hin); try lia.
  exists id. split; assumption.
Qed.

(** The clamped neighbours of a valid index are trailing-edge nodes of valid
    indices. *)
Lemma prev_node_clamped (s : LiftingSurface double) (i : Z) :
  - 2 ^ 31 <= i < 2 ^ 31 ->
  prev_node s i = trailing_edge_node s (if 0 <? i then i - 1 else i).
Proof.
  intros Hi. unfold prev_node. destruct (0 <? i) eqn:Ei; [| reflexivity].
  rewrite to_int_small by lia. reflexivity.
Qed.

Lemma next_node_clamped (s : LiftingSurface double) (i : Z) :
  - 2 ^ 31 <= i < 2 ^ 31 -> 0 <= n_spanwise_nodes s ->
  next_node s i
  = trailing_edge_node s (if i <? n_spanwise_nodes s - 1 then i + 1 else i).
Proof.
  intros Hi Hn. unfold next_node.
  pose proof (to_int_range (cols (upper_nodes s))) as Hc.
  fold (n_spanwise_nodes s) in Hc.
  rewrite (to_int_small (n_spanwise_nodes s - 1)) by lia.
  destruct (i <? n_spanwise_nodes s - 1) eqn:Ei; [| reflexivity].
  rewrite to_int_small by lia. reflexivity.
Qed.

Lemma valid_index_int (s : LiftingSurface double) (i : Z) :
  valid_index s i -> - 2 ^ 31 <= i < 2 ^ 31 /\ 0 <= n_spanwise_nodes s.
Proof.
  unfold valid_index. intros H.
  pose proof (to_int_range (cols (upper_nodes s))) as Hc.
  fold (n_spanwise_nodes s) in Hc. lia.
Qed.

(** The tangent of a half is the difference of the positions of the nodes of
    its last two chordwise rows. *)
Lemma tangent_defined (s : LiftingSurface double) (m : MatrixXi) (i : Z) :
  wf_grid m = true -> node_ids_valid s m = true ->
  2 <= rows m -> 0 <= i < cols m ->
  exists (i1 i2 : Z) (p1 p2 : Vector3d double),
    coeff m (rows m - 1) i = Some i1 /\ coeff m (rows m - 2) i = Some i2 /\
    node s i1 = Some p1 /\ node s i2 = Some p2 /\
    (i1 <- coeff m (rows m - 1) i ;;
     p1 <- node s i1 ;;
     i2 <- coeff m (rows m - 2) i ;;
     p2 <- node s i2 ;;
     Some (p1 - p2)%V) = Some (p1 - p2)%V.
Proof.
  intros Hwf Hids Hr Hi.
  destruct (coeff_defined m (rows m - 1) i Hwf) as (i1 & E1 & _ & In1);
    try lia.
  destruct (coeff_defined m (rows m - 2) i Hwf) as (i2 & E2 & _ & In2);
    try lia.
  destruct (node_defined s m i1 Hids In1) as [p1 N1].
  destruct (node_defined s m i2 Hids In2) as [p2 N2].
  exists i1, i2, p1, p2. repeat split; try assumption.
  rewrite E1. simpl. rewrite N1. simpl. rewrite E2. simpl. rewrite N2.
  reflexivity.
Qed.

Lemma tangent_inv (s : LiftingSurface double) (m : MatrixXi) (i : Z)
    (t : Vector3d double) :
  (i1 <- coeff m (rows m - 1) i ;;
   p1 <- node s i1 ;;
   i2 <- coeff m (rows m - 2) i ;;
   p2 <- node s i2 ;;
   Some (p1 - p2)%V) = Some t ->
  2 <= rows m /\ 0 <= i < cols m.
Proof.
  intros H.
  destruct (coeff m (rows m - 1) i) as [i1 |]; [simpl in H | discriminate].
  destruct (node s i1) as [p1 |]; [simpl in H | discriminate].
  destruct (coeff m (rows m - 2) i) as [i2 |] eqn:E2;
    [simpl in H | discriminate].
  apply coeff_inv in E2. lia.
Qed.

Lemma span_direction_defined (s : LiftingSurface double) (p n : Z) :
  node_ids_valid s (upper_nodes s) = true ->
  In p (coeffs (upper_nodes s)) -> In n (coeffs (upper_nodes s)) ->
  exists d, span_direction s p n = Some d.
Proof.
  intros Hids Hp Hn.
  destruct (node_defined s _ p Hids Hp) as [pp Ep].
  destruct (node_defined s _ n Hids Hn) as [pn En].
  exists (pn - pp)%V. unfold span_direction. rewrite En. simpl. rewrite Ep.
  reflexivity.
Qed.

Lemma neighbours_defined (s : LiftingSurface double) (i : Z) :
  wf_grid (upper_nodes s) = true -> 1 <= n_chordwise_nodes s ->
  valid_index s i ->
  exists p n, prev_node s i = Some p /\ next_node s i = Some n /\
              In p (coeffs (upper_nodes s)) /\ In n (coeffs (upper_nodes s)).
Proof.
  intros Hwf Hr Hi. destruct (valid_index_int s i Hi) as [Hint Hn].
  rewrite (prev_node_clamped s i Hint), (next_node_clamped s i Hint Hn).
  destruct (trailing_edge_node_defined s (if 0 <? i then i - 1 else i) Hwf Hr)
    as (p & Ep & Inp).
  { unfold valid_index in *. destruct (0 <? i) eqn:Ei; lia. }
  destruct (trailing_edge_node_defined s
              (if i <? n_spanwise_nodes s - 1 then i + 1 else i) Hwf Hr)
    as (n & En & Inn).
  { unfold valid_index in *.
    destruct (i <? n_spanwise_nodes s - 1) eqn:Ei; lia. }
  exists p, n. repeat split; assumption.
Qed.

Lemma follows_bisector_test (P : Parameters) (s : LiftingSurface double) :
  wake_emission_follow_bisector P && (1 <? n_chordwise_nodes s) = true
  <-> follows_bisector P s.
Proof.
  unfold follows_bisector. rewrite andb_true_iff, Z.ltb_lt. tauto.
Qed.

Lemma bisector_defined (s : LiftingSurface double) (i : Z) :
  wf_surface s = true -> 2 <= n_chordwise_nodes s -> valid_index s i ->
  exists b, trailing_edge_bisector s i = Some b.
Proof.
  intros Hwf Hr Hi.
  apply wf_surface_inv in Hwf as (Hu & Hl & Er & Ec & Iu & Il).
  destruct (counts_of_wf s Hu) as [Cr Cc].
  unfold valid_index in Hi. rewrite Cc in Hi. rewrite Cr in Hr.
  destruct (tangent_defined s (upper_nodes s) i Hu Iu)
    as (u1 & u2 & pu1 & pu2 & _ & _ & _ & _ & Eu); try lia.
  destruct (tangent_defined s (lower_nodes s) i Hl Il)
    as (l1 & l2 & pl1 & pl2 & _ & _ & _ & _ & El); try lia.
  unfold trailing_edge_bisector, upper_tangent, lower_tangent.
  rewrite Eu. simpl. rewrite El. simpl. eexists. reflexivity.
Qed.

End Accesses.

(** ** Laws of double precision *)

Lemma float_add_comm (x y : float) : (x + y = y + x)%float.
Proof.
  apply Prim2SF_inj. rewrite !add_spec.
  destruct (Prim2SF x) as [sx | sx | | sx mx ex],
           (Prim2SF y) as [sy | sy | | sy my ey];
    try reflexivity; try (destruct sx, sy; reflexivity).
  unfold SF64add, SFadd. rewrite (Z.min_comm ex ey), Z.add_comm. reflexivity.
Qed.

Lemma float_mul_opp_opp (x y : float) : ((- x) * (- y) = x * y)%float.
Proof.
  apply Prim2SF_inj. rewrite !mul_spec, !opp_spec.
  destruct (Prim2SF x) as [sx | sx | | sx mx ex],
           (Prim2SF y) as [sy | sy | | sy my ey];
    try reflexivity; simpl; destruct sx, sy; reflexivity.
Qed.

Lemma binary64_add_commutative (o : Summation) (d : Division) :
  add_commutative (binary64 o d).
Proof.
  intros [ax ay az] [bx by_ bz]. simpl. unfold f_add. simpl.
  f_equal; apply float_add_comm.
Qed.

Lemma binary64_norm_even (o : Summation) (d : Division) :
  norm_even (binary64 o d).
Proof.
  intros [ax ay az]. simpl. unfold f_norm, f_dot, f_opp. simpl.
  rewrite !float_mul_opp_opp. reflexivity.
Qed.

(** ** The wake emission velocity *)

(** C1.  When the flag is set, there are at least two chordwise nodes, and the
    clamped neighbours [p] and [n] of the trailing-edge index [i] differ, the
    wake emission velocity is [-(v - (v . wn) wn)] for the wake normal
    [wn = normalize (span x bisector)], where the span direction is
    [position n - position p]: each operation as Eigen computes it. *)
Theorem wake_emission_in_wake_plane {double : Type} {E : Ops double}
    (P : Parameters) (s : LiftingSurface double) (v : Vector3d double)
    (i p n : Z) (pp pn b : Vector3d double) :
  follows_bisector P s ->
  prev_node s i = Some p -> next_node s i = Some n -> p <> n ->
  node s p = Some pp -> node s n = Some pn ->
  trailing_edge_bisector s i = Some b ->
  span_direction s p n = Some (pn - pp)%V /\
  wake_emission_velocity P s v i
  = Some (- (v - dot v (normalize (cross (pn - pp)%V b))
                 * normalize (cross (pn - pp)%V b)))%V.
Proof.
  intros Hmode Ep En Hpn Npp Npn Eb.
  apply follows_bisector_test in Hmode.
  assert (Ed : span_direction s p n = Some (pn - pp)%V).
  { unfold span_direction. rewrite Npn, Npp. reflexivity. }
  split; [exact Ed |].
  unfold wake_emission_velocity. rewrite Hmode, Ep, En, Eb. simpl.
  replace (p =? n) with false by lia. simpl. rewrite Ed. reflexivity.
Qed.

Lemma wake_emission_in_wake_plane_witness :
  wake_emission_velocity (E:=eigen33) bisector_on flat_surface
    probe 1
  = Some (Vec (-2) (-0) (-0))%float.
Proof.
  exact (proj2 (wake_emission_in_wake_plane (E:=eigen33) bisector_on
                  flat_surface probe 1 3 5
                  (Vec 1 0 0)%float (Vec 1 2 0)%float (Vec 1 0 0)%float
                  (conj eq_refl eq_refl) eq_refl eq_refl
                  ltac:(discriminate) eq_refl eq_refl eq_refl)).
Defined.

(** C1, as stated, fails in double precision.  On the skew surface, with the
    flag set, at index 0, the neighbours are the nodes 1 and 3, the bisector
    is [(1, 0, 0)], and the emission velocity of [(-4, -4, 0)] is
    [-(v - (v . wn) wn)]; its dot product with the wake normal [wn] is not
    zero, however Eigen evaluates [dot] and [normalize]. *)
Lemma wake_emission_in_wake_plane_counterexample :
  Forall (fun E : Ops float =>
    let v := (Vec (-4) (-4) 0)%float in
    let b := (Vec 1 0 0)%float in
    let wn := normalize (cross (Vec (-4) (-4) (-4) - Vec 0 0 0)%V b)%float in
    let r := (- (v - dot v wn * wn))%V in
    follows_bisector bisector_on skew_surface /\
    prev_node skew_surface 0 = Some 1 /\
    next_node skew_surface 0 = Some 3 /\
    trailing_edge_bisector skew_surface 0 = Some b /\
    wake_emission_velocity bisector_on skew_surface v 0 = Some r /\
    PrimFloat.eqb (dot r wn) 0 = false) variants.
Proof.
  repeat apply Forall_cons; try apply Forall_nil;
    (split; [split; reflexivity |]); repeat split; reflexivity.
Qed.

(** C2.  When the flag is unset, or there is at most one chordwise node, the
    wake emission velocity is the negated apparent velocity, whatever the
    mesh and the index. *)
Theorem wake_emission_direct {double : Type} {E : Ops double}
    (P : Parameters) (s : LiftingSurface double) (v : Vector3d double)
    (i : Z) :
  wake_emission_follow_bisector P = false \/ n_chordwise_nodes s <= 1 ->
  wake_emission_velocity P s v i = Some (- v)%V.
Proof.
  intros H. unfold wake_emission_velocity.
  replace (wake_emission_follow_bisector P && (1 <? n_chordwise_nodes s))
    with false; [reflexivity |].
  symmetry. apply andb_false_iff. destruct H as [H | H]; [left | right].
  - exact H.
  - apply Z.ltb_ge. exact H.
Qed.

Lemma wake_emission_direct_witness :
  wake_emission_velocity (E:=eigen33) bisector_off flat_surface downwash 1
  = Some (Vec (-0) (-0) 5)%float /\
  wake_emission_velocity (E:=eigen33) bisector_on line_surface downwash 1
  = Some (Vec (-0) (-0) 5)%float.
Proof.
  split.
  - exact (wake_emission_direct (E:=eigen33) bisector_off flat_surface
             downwash 1 (or_introl eq_refl)).
  - refine (wake_emission_direct (E:=eigen33) bisector_on line_surface
              downwash 1 (or_intror _)).
    discriminate.
Defined.

(** C3.  The neighbours of a trailing-edge index are clamped at the two ends
    of the span and never wrap around: the previous node is the trailing-edge
    node of [i - 1] if [i > 0] and of [i] otherwise, the next node that of
    [i + 1] if [i < n_spanwise_nodes - 1] and of [i] otherwise, and both
    indices are within the span.  With a single spanwise station the two
    neighbours are the same node, and with the flag set and at least two
    chordwise nodes the emission is the projection onto the line of the
    bisector. *)
Theorem neighbours_clamped {double : Type} {E : Ops double}
    (P : Parameters) (s : LiftingSurface double) (v : Vector3d double)
    (i : Z) :
  valid_index s i ->
  prev_node s i = trailing_edge_node s (if 0 <? i then i - 1 else i) /\
  next_node s i
  = trailing_edge_node s (if i <? n_spanwise_nodes s - 1 then i + 1 else i) /\
  valid_index s (if 0 <? i then i - 1 else i) /\
  valid_index s (if i <? n_spanwise_nodes s - 1 then i + 1 else i) /\
  (n_spanwise_nodes s = 1 ->
   prev_node s i = next_node s i /\
   (wf_grid (upper_nodes s) = true -> follows_bisector P s ->
    (exists id, prev_node s i = Some id /\ next_node s i = Some id) /\
    wake_emission_velocity P s v i
    = (b <- trailing_edge_bisector s i ;;
       Some (neg (dot v b) * b)%V))).
Proof.
  intros Hi. destruct (valid_index_int s i Hi) as [Hint Hn].
  pose proof (prev_node_clamped s i Hint) as Ep.
  pose proof (next_node_clamped s i Hint Hn) as En.
  split; [exact Ep |]. split; [exact En |].
  split; [| split].
  - unfold valid_index in *. destruct (0 <? i) eqn:Ei; lia.
  - unfold valid_index in *.
    destruct (i <? n_spanwise_nodes s - 1) eqn:Ei; lia.
  - intros H1.
    assert (Hpn : prev_node s i = next_node s i).
    { rewrite Ep, En. unfold valid_index in Hi.
      replace (0 <? i) with false by lia.
      replace (i <? n_spanwise_nodes s - 1) with false by lia.
      reflexivity. }
    split; [exact Hpn |].
    intros Hwf Hmode.
    destruct (neighbours_defined s i Hwf ltac:(destruct Hmode; lia) Hi)
      as (p & n & Ep' & En' & _).
    assert (p = n) by congruence. subst n.
    split; [exists p; split; assumption |].
    apply follows_bisector_test in Hmode.
    unfold wake_emission_velocity. rewrite Hmode, Ep', En'. simpl.
    rewrite Z.eqb_refl. simpl.
    destruct (trailing_edge_bisector s i); reflexivity.
Qed.

Lemma neighbours_clamped_witness :
  prev_node strip_surface 0 = next_node strip_surface 0 /\
  wake_emission_velocity (E:=eigen33) bisector_on strip_surface
    probe 0
  = Some (Vec (-2) (-0) (-0))%float.
Proof.
  assert (Hi : valid_index strip_surface 0)
    by (split; [discriminate | reflexivity]).
  destruct (neighbours_clamped (E:=eigen33) bisector_on strip_surface
              probe 0 Hi)
    as (_ & _ & _ & _ & H).
  destruct (H eq_refl) as [Hpn Hw]. split; [exact Hpn |].
  destruct (Hw eq_refl (conj eq_refl eq_refl)) as [_ ->].
  reflexivity.
Defined.

(** C4.  When the flag is set, there are at least two chordwise nodes, and the
    clamped neighbours of [i] are the same node, the wake emission velocity is
    [-(v . bisector) bisector] for the bisector at [i]: each coefficient of
    the bisector times the one double [-(v . bisector)]. *)
Theorem wake_emission_along_bisector {double : Type} {E : Ops double}
    (P : Parameters) (s : LiftingSurface double) (v : Vector3d double)
    (i p : Z) :
  follows_bisector P s ->
  prev_node s i = Some p -> next_node s i = Some p ->
  wake_emission_velocity P s v i
  = (b <- trailing_edge_bisector s i ;; Some (neg (dot v b) * b)%V) /\
  forall b : Vector3d double,
    trailing_edge_bisector s i = Some b ->
    wake_emission_velocity P s v i = Some (neg (dot v b) * b)%V.
Proof.
  intros Hmode Ep En. apply follows_bisector_test in Hmode.
  assert (Hw : wake_emission_velocity P s v i
               = (b <- trailing_edge_bisector s i ;;
                  Some (neg (dot v b) * b)%V)).
  { unfold wake_emission_velocity. rewrite Hmode, Ep, En. simpl.
    destruct (trailing_edge_bisector s i) as [b |]; [simpl | reflexivity].
    rewrite Z.eqb_refl. reflexivity. }
  split; [exact Hw |]. intros b Eb. rewrite Hw, Eb. reflexivity.
Qed.

Lemma wake_emission_along_bisector_witness :
  wake_emission_velocity (E:=eigen33) bisector_on strip_surface
    probe 0
  = Some (Vec (-2) (-0) (-0))%float.
Proof.
  destruct (wake_emission_along_bisector (E:=eigen33) bisector_on
              strip_surface probe 0 1
              (conj eq_refl eq_refl) eq_refl eq_refl)
    as [_ H].
  exact (H (Vec 1 0 0)%float eq_refl).
Defined.

(** C4, as stated, fails in double precision.  On the strip whose chord runs
    from [(4, 4, 3)] to the origin, with the flag set, the emission velocity
    of [(-4, -4, -2)] is [-(v . b) b] for the bisector [b], and its cross
    product with [b] is not the zero vector, however Eigen evaluates [dot] and
    [normalize]: the rounded products are not parallel to [b]. *)
Lemma wake_emission_along_bisector_counterexample :
  Forall (fun E : Ops float =>
    exists b r : Vector3d float,
      follows_bisector bisector_on (strip (Vec 4 4 3)%float) /\
      prev_node (strip (Vec 4 4 3)%float) 0
      = next_node (strip (Vec 4 4 3)%float) 0 /\
      trailing_edge_bisector (strip (Vec 4 4 3)%float) 0 = Some b /\
      wake_emission_velocity bisector_on (strip (Vec 4 4 3)%float)
        (Vec (-4) (-4) (-2))%float 0 = Some r /\
      r = (neg (dot (Vec (-4) (-4) (-2))%float b) * b)%V /\
      PrimFloat.eqb (vx (cross r b)) 0 = false /\
      PrimFloat.eqb (vy (cross r b)) 0 = false) variants.
Proof.
  repeat apply Forall_cons; try apply Forall_nil;
    (eexists; eexists; split; [split; reflexivity |]);
    repeat split; reflexivity.
Qed.

(** ** The trailing edge *)




(** C6.  On a well-formed grid with at least one chordwise row, at every valid
    index [i], the trailing-edge node is the id that the upper node grid
    stores at its last row and column [i]. *)
Theorem trailing_edge_node_last_row {double : Type}
    (s : LiftingSurface double) (i : Z) :
  wf_grid (upper_nodes s) = true -> 1 <= n_chordwise_nodes s ->
  valid_index s i ->
  exists id : Z,
    trailing_edge_node s i = Some id /\
    coeff (upper_nodes s) (n_chordwise_nodes s - 1) i = Some id /\
    nth_error (coeffs (upper_nodes s))
      (Z.to_nat (n_chordwise_nodes s - 1 + i * n_chordwise_nodes s))
    = Some id.
Proof.
  intros Hwf Hr Hi. destruct (counts_of_wf s Hwf) as [Er Ec].
  unfold valid_index in Hi. rewrite Ec in Hi. rewrite Er in *.
  destruct (coeff_defined (upper_nodes s) (rows (upper_nodes s) - 1) i Hwf)
    as (id & Eid & En & _); try lia.
  exists id. repeat split; assumption.
Qed.

Lemma trailing_edge_node_last_row_witness :
  exists id : Z,
    trailing_edge_node flat_surface 2 = Some id /\
    coeff (upper_nodes flat_surface) 1 2 = Some id /\
    nth_error [0; 3; 1; 4; 2; 5] 5 = Some id.
Proof.
  apply (trailing_edge_node_last_row flat_surface 2).
  - reflexivity.
  - discriminate.
  - split; [discriminate | reflexivity].
Defined.

(** ** The do-nothing boundary layer *)

(** C7.  For the do-nothing boundary layer, whatever its data members: the
    blowing velocity of every panel is [0.0], the friction on every panel is
    the zero vector, and [recalculate] returns the object unchanged for every
    matrix of surface velocities, so that no later query can tell the
    difference; the same holds through the interface. *)
Theorem dummy_boundary_layer_noop {double : Type} {E : Ops double}
    (t : Type) (self : t) (panel : Z) (surface_velocities : MatrixXd double) :
  DummyBoundaryLayer.blowing_velocity self panel = zero /\
  DummyBoundaryLayer.friction self panel = Vec zero zero zero /\
  DummyBoundaryLayer.recalculate self surface_velocities = self /\
  let dummy := DummyBoundaryLayer.boundary_layer t in
  @recalculate double t dummy self surface_velocities = self /\
  @blowing_velocity double t dummy
    (@recalculate double t dummy self surface_velocities) panel = zero /\
  @friction double t dummy
    (@recalculate double t dummy self surface_velocities) panel
  = Vec zero zero zero.
Proof. repeat split. Qed.

(** ** Purity *)

Section CallsAreFunctions.

Context {double : Type} {E : Ops double}.

Lemma and_then_read {A B : Type} (f : World double -> A) (k : A -> Call B)
    (w : World double) :
  and_then (read f) k w = k (f w) w.
Proof. reflexivity. Qed.

Lemma and_then_ret {A B : Type} (a : A) (k : A -> Call B) (w : World double) :
  and_then (ret a) k w = k a w.
Proof. reflexivity. Qed.

Lemma and_then_access {A B : Type} (o : option A) (k : A -> Call B)
    (w : World double) :
  and_then (access o) k w
  = match o with Some a => k a w | None => None end.
Proof. destruct o; reflexivity. Qed.

Lemma and_then_assoc {A B C : Type} (c : Call A) (k1 : A -> Call B)
    (k2 : B -> Call C) (w : World double) :
  and_then (and_then c k1) k2 w
  = and_then c (fun a => and_then (k1 a) k2) w.
Proof. unfold and_then. destruct (c w) as [[a w'] |]; reflexivity. Qed.

(** A call that is a function of the world, followed by another call. *)
Lemma and_then_call {A B : Type} (c : Call A) (k : A -> Call B)
    (w : World double) (o : option A) :
  c w = option_map (fun a => (a, w)) o ->
  and_then c k w = match o with Some a => k a w | None => None end.
Proof. unfold and_then. intros ->. destruct o; reflexivity. Qed.

Lemma call_node_spec (id : Z) (w : World double) :
  call_node id w = option_map (fun a => (a, w)) (node (surface w) id).
Proof.
  unfold call_node, node. rewrite and_then_read.
  destruct (id <? 0); [reflexivity |].
  unfold access. destruct (nth_error _ _); reflexivity.
Qed.

Lemma call_trailing_edge_node_spec (index : Z) (w : World double) :
  call_trailing_edge_node index w
  = option_map (fun a => (a, w)) (trailing_edge_node (surface w) index).
Proof.
  unfold call_trailing_edge_node, trailing_edge_node. rewrite and_then_read.
  unfold access. destruct (coeff _ _ _); reflexivity.
Qed.

Lemma call_n_chordwise_nodes_spec (w : World double) :
  call_n_chordwise_nodes w
  = option_map (fun a => (a, w)) (Some (n_chordwise_nodes (surface w))).
Proof. reflexivity. Qed.

Lemma call_n_spanwise_nodes_spec (w : World double) :
  call_n_spanwise_nodes w
  = option_map (fun a => (a, w)) (Some (n_spanwise_nodes (surface w))).
Proof. reflexivity. Qed.

Ltac call_step :=
  lazymatch goal with
  | |- and_then (read _) _ _ = _ => rewrite and_then_read
  | |- and_then (ret _) _ _ = _ => rewrite and_then_ret
  | |- and_then (access _) _ _ = _ => rewrite and_then_access
  | |- and_then (call_node _) _ _ = _ =>
      rewrite (and_then_call _ _ _ _ (call_node_spec _ _))
  | |- and_then (call_trailing_edge_node _) _ _ = _ =>
      rewrite (and_then_call _ _ _ _ (call_trailing_edge_node_spec _ _))
  | |- and_then call_n_chordwise_nodes _ _ = _ =>
      rewrite (and_then_call _ _ _ _ (call_n_chordwise_nodes_spec _))
  | |- and_then call_n_spanwise_nodes _ _ = _ =>
      rewrite (and_then_call _ _ _ _ (call_n_spanwise_nodes_spec _))
  | |- and_then (and_then _ _) _ _ = _ => rewrite and_then_assoc
  | |- and_then (if ?b then _ else _) _ _ = _ => destruct b
  | |- (if ?b then _ else _) _ = _ => destruct b
  | |- ret _ _ = _ => reflexivity
  | |- match ?o with Some _ => _ | None => _ end = _ =>
      first [ match goal with H : o = _ |- _ => rewrite H end
            | let Eo := fresh "Eo" in destruct o eqn:Eo ];
      cbn [bind option_map]; try reflexivity
  end;
  cbn beta iota zeta.

Lemma call_trailing_edge_bisector_spec (node_index : Z) (w : World double) :
  call_trailing_edge_bisector node_index w
  = option_map (fun a => (a, w))
      (trailing_edge_bisector (surface w) node_index).
Proof.
  unfold call_trailing_edge_bisector, trailing_edge_bisector, upper_tangent,
    lower_tangent.
  repeat call_step.
Qed.

Lemma call_wake_emission_velocity_spec (v : Vector3d double) (node_index : Z)
    (w : World double) :
  call_wake_emission_velocity v node_index w
  = option_map (fun a => (a, w))
      (wake_emission_velocity (parameters w) (surface w) v node_index).
Proof.
  unfold call_wake_emission_velocity, wake_emission_velocity, prev_node,
    next_node, span_direction.
  fold (n_spanwise_nodes (surface w)).
  call_step.
  destruct (wake_emission_follow_bisector (parameters w)); cbn [andb].
  - do 3 call_step. fold (n_chordwise_nodes (surface w)).
    destruct (1 <? n_chordwise_nodes (surface w)); cbn beta iota;
      [| reflexivity].
    repeat first
      [ rewrite (and_then_call _ _ _ _ (call_trailing_edge_bisector_spec _ _));
        cbn beta iota
      | call_step ].
  - repeat call_step.
Qed.

End CallsAreFunctions.

(** C8.  Every query (the four counts, the three trailing-edge lookups, the
    bisector and the wake emission velocity), run as a call that could assign
    to the object and to the parameters, leaves the world as it was: the node
    positions, the four topology grids and the flag are unchanged.  What it
    returns is a function of the node positions, the topology grids, the flag
    and its arguments: in two worlds that agree on them, whatever else differs,
    the same call returns the same result. *)
Theorem queries_pure {double : Type} {E : Ops double} (w1 w2 : World double)
    (v : Vector3d double) (i : Z) :
  same_inputs w1 w2 ->
  pure_call call_n_chordwise_nodes
    (fun w => Some (n_chordwise_nodes (surface w))) w1 w2 /\
  pure_call call_n_chordwise_panels
    (fun w => Some (n_chordwise_panels (surface w))) w1 w2 /\
  pure_call call_n_spanwise_nodes
    (fun w => Some (n_spanwise_nodes (surface w))) w1 w2 /\
  pure_call call_n_spanwise_panels
    (fun w => Some (n_spanwise_panels (surface w))) w1 w2 /\
  pure_call (call_trailing_edge_node i)
    (fun w => trailing_edge_node (surface w) i) w1 w2 /\
  pure_call (call_trailing_edge_upper_panel i)
    (fun w => trailing_edge_upper_panel (surface w) i) w1 w2 /\
  pure_call (call_trailing_edge_lower_panel i)
    (fun w => trailing_edge_lower_panel (surface w) i) w1 w2 /\
  pure_call (call_trailing_edge_bisector i)
    (fun w => trailing_edge_bisector (surface w) i) w1 w2 /\
  pure_call (call_wake_emission_velocity v i)
    (fun w => wake_emission_velocity (parameters w) (surface w) v i) w1 w2.
Proof.
  intros Hsame. unfold pure_call.
  assert (Hpanel : forall (m : World double -> MatrixXi) (w : World double),
             and_then (read m)
               (fun g => access (coeff g (rows g - 1) i)) w
             = option_map (fun a => (a, w)) (coeff (m w) (rows (m w) - 1) i)).
  { intros m w. rewrite and_then_read. unfold access.
    destruct (coeff _ _ _); reflexivity. }
  repeat split;
    try reflexivity;
    try apply call_trailing_edge_node_spec;
    try apply call_trailing_edge_bisector_spec;
    try apply call_wake_emission_velocity_spec;
    try (apply (Hpanel (fun w => upper_panels (surface w))));
    try (apply (Hpanel (fun w => lower_panels (surface w))));
    destruct w1 as [[n1 pn1 un1 ln1 up1 lp1] [f1]];
    destruct w2 as [[n2 pn2 un2 ln2 up2 lp2] [f2]];
    unfold same_inputs in Hsame; simpl in Hsame;
    destruct Hsame as (<- & <- & <- & <- & <- & <-); reflexivity.
Qed.

Lemma queries_pure_witness :
  pure_call (call_wake_emission_velocity (E:=eigen33) probe 1)
    (fun w => wake_emission_velocity (E:=eigen33) (parameters w) (surface w)
                probe 1)
    {| surface := flat_surface; parameters := bisector_on |}
    {| surface := flat_surface_repanelled; parameters := bisector_on |}.
Proof.
  apply (queries_pure (E:=eigen33)
           {| surface := flat_surface; parameters := bisector_on |}
           {| surface := flat_surface_repanelled; parameters := bisector_on |}
           probe 1).
  repeat split.
Defined.

(** ** The emission as a map: norm and linearity *)




(** C10.  For a fixed mesh, flag and index, the wake emission velocity is one
    of three maps of the apparent velocity, chosen, with its vector, without
    looking at the apparent velocity: [v |-> -v] when the bisector is not
    followed, [v |-> -(v . b) b] for the bisector [b] when the neighbours are
    the same node, [v |-> -(v - (v . wn) wn)] for the wake normal [wn] when
    they differ. *)
Theorem wake_emission_factor {double : Type} {E : Ops double}
    (P : Parameters) (s : LiftingSurface double) (i : Z) :
  exists e : option (Emission double),
    (forall v : Vector3d double,
       wake_emission_velocity P s v i = option_map (fun k => emit k v) e) /\
    (~ follows_bisector P s -> e = Some Direct) /\
    forall (p n : Z) (b : Vector3d double),
      follows_bisector P s ->
      prev_node s i = Some p -> next_node s i = Some n ->
      trailing_edge_bisector s i = Some b ->
      (p = n -> e = Some (AlongBisector b)) /\
      (p <> n ->
       forall d : Vector3d double,
         span_direction s p n = Some d ->
         e = Some (InWakePlane (normalize (cross d b)))).
Proof.
  exists (emission P s i). unfold emission. split; [| split].
  - intros v. unfold wake_emission_velocity.
    destruct (wake_emission_follow_bisector P && (1 <? n_chordwise_nodes s));
      [| reflexivity].
    destruct (prev_node s i) as [p |]; [simpl | reflexivity].
    destruct (next_node s i) as [n |]; [simpl | reflexivity].
    destruct (trailing_edge_bisector s i) as [b |]; [simpl | reflexivity].
    destruct (negb (p =? n)); [| reflexivity].
    destruct (span_direction s p n) as [d |]; reflexivity.
  - intros Hmode. rewrite <- follows_bisector_test in Hmode.
    destruct (wake_emission_follow_bisector P && (1 <? n_chordwise_nodes s));
      [contradiction Hmode; reflexivity | reflexivity].
  - intros p n b Hmode Ep En Eb. apply follows_bisector_test in Hmode.
    rewrite Hmode, Ep, En, Eb. simpl. split.
    + intros ->. rewrite Z.eqb_refl. reflexivity.
    + intros Hpn d Ed. replace (p =? n) with false by lia. simpl.
      rewrite Ed. reflexivity.
Qed.

(** C10, as stated, fails in double precision.  On the strip whose chord runs
    from [(-1, -1, 0)] to the origin, well formed, at its one valid index,
    with the flag set, for [u = (-2, -2, -2)]: the emission velocity of
    [2 u + 1 u] is not [2] times that of [u] plus [1] times that of [u],
    however Eigen evaluates [dot] and [normalize]. *)
Lemma wake_emission_linear_counterexample :
  Forall (fun E : Ops float =>
    let s := strip (Vec (-1) (-1) 0)%float in
    let u := (Vec (-2) (-2) (-2))%float in
    exists ru l : Vector3d float,
      wf_surface s = true /\ valid_index s 0 /\
      follows_bisector bisector_on s /\
      upper_tangent s 0 = Some (Vec 1 1 0)%float /\
      wake_emission_velocity bisector_on s u 0 = Some ru /\
      wake_emission_velocity bisector_on s
        (2%float * u + 1%float * u)%V 0 = Some l /\
      PrimFloat.eqb (vx l) (vx (2%float * ru + 1%float * ru)%V) = false /\
      PrimFloat.eqb (vy l) (vy (2%float * ru + 1%float * ru)%V) = false)
    variants.
Proof.
  repeat apply Forall_cons; try apply Forall_nil;
    (eexists; eexists; split; [reflexivity |]; split;
     [split; [discriminate | reflexivity] |]; split;
     [split; reflexivity |]);
    repeat split; reflexivity.
Qed.

(** ** Bounds of the trailing-edge lookups *)

(** The upper and the lower trailing-edge panel of a valid panel index are the
    ids that the panel grids store at their last row and that column. *)
Theorem trailing_edge_panels_last_row {double : Type}
    (s : LiftingSurface double) (i : Z) :
  wf_grid (upper_panels s) = true -> wf_grid (lower_panels s) = true ->
  rows (lower_panels s) = rows (upper_panels s) ->
  cols (lower_panels s) = cols (upper_panels s) ->
  1 <= n_chordwise_panels s -> 0 <= i < n_spanwise_panels s ->
  exists u l : Z,
    trailing_edge_upper_panel s i = Some u /\
    nth_error (coeffs (upper_panels s))
      (Z.to_nat (n_chordwise_panels s - 1 + i * n_chordwise_panels s))
    = Some u /\
    trailing_edge_lower_panel s i = Some l /\
    nth_error (coeffs (lower_panels s))
      (Z.to_nat (n_chordwise_panels s - 1 + i * n_chordwise_panels s))
    = Some l.
Proof.
  intros Hu Hl Er Ec Hr Hi.
  pose proof (wf_grid_inv _ Hu) as (Hur & Huc & _).
  unfold n_chordwise_panels, n_spanwise_panels in *.
  rewrite to_int_small in * by lia.
  destruct (coeff_defined (upper_panels s) (rows (upper_panels s) - 1) i Hu)
    as (u & Eu & Nu & _); try lia.
  destruct (coeff_defined (lower_panels s) (rows (lower_panels s) - 1) i Hl)
    as (l & El & Nl & _); try lia.
  exists u, l. unfold trailing_edge_upper_panel, trailing_edge_lower_panel.
  rewrite Er in Nl. repeat split; assumption.
Qed.

Lemma trailing_edge_panels_last_row_witness :
  exists u l : Z,
    trailing_edge_upper_panel flat_surface 1 = Some u /\
    nth_error [0; 1] 1 = Some u /\
    trailing_edge_lower_panel flat_surface 1 = Some l /\
    nth_error [0; 1] 1 = Some l.
Proof.
  apply (trailing_edge_panels_last_row flat_surface 1); try reflexivity.
  split; [discriminate | reflexivity].
Defined.

(** A trailing-edge lookup that is defined was made within its own grid: the
    grid has a row, the index is one of its columns, and the id is one that
    this grid stores; the node lookup reads the upper node grid, the panel
    lookups the upper and the lower panel grid. *)
Theorem trailing_edge_lookup_in_range {double : Type}
    (s : LiftingSurface double) (i id : Z) :
  (trailing_edge_node s i = Some id ->
   1 <= rows (upper_nodes s) /\ 0 <= i < cols (upper_nodes s) /\
   In id (coeffs (upper_nodes s)) /\
   coeff (upper_nodes s) (rows (upper_nodes s) - 1) i = Some id) /\
  (trailing_edge_upper_panel s i = Some id ->
   1 <= rows (upper_panels s) /\ 0 <= i < cols (upper_panels s) /\
   In id (coeffs (upper_panels s)) /\
   coeff (upper_panels s) (rows (upper_panels s) - 1) i = Some id) /\
  (trailing_edge_lower_panel s i = Some id ->
   1 <= rows (lower_panels s) /\ 0 <= i < cols (lower_panels s) /\
   In id (coeffs (lower_panels s)) /\
   coeff (lower_panels s) (rows (lower_panels s) - 1) i = Some id).
Proof.
  repeat split; try exact H; apply coeff_inv in H; try lia; tauto.
Qed.

Lemma trailing_edge_lookup_in_range_witness :
  1 <= rows (upper_nodes flat_surface) /\
  0 <= 2 < cols (upper_nodes flat_surface) /\
  In 5 (coeffs (upper_nodes flat_surface)) /\
  coeff (upper_nodes flat_surface) (rows (upper_nodes flat_surface) - 1) 2
  = Some 5.
Proof.
  exact (proj1 (trailing_edge_lookup_in_range flat_surface 2 5) eq_refl).
Defined.

(** A bisector that is defined was computed on grids with at least two
    chordwise rows, at one of their columns: with fewer rows in either half
    the row before the last is out of range. *)
Theorem trailing_edge_bisector_defined_inv {double : Type} {E : Ops double}
    (s : LiftingSurface double) (i : Z) (b : Vector3d double) :
  trailing_edge_bisector s i = Some b ->
  2 <= rows (upper_nodes s) /\ 2 <= rows (lower_nodes s) /\
  0 <= i < cols (upper_nodes s) /\ 0 <= i < cols (lower_nodes s).
Proof.
  intros H. unfold trailing_edge_bisector in H. do 2 bind_inv H. clear H.
  apply tangent_inv in E0, E1. lia.
Qed.

Lemma trailing_edge_bisector_defined_inv_witness :
  2 <= rows (upper_nodes flat_surface) /\
  2 <= rows (lower_nodes flat_surface) /\
  0 <= 1 < cols (upper_nodes flat_surface) /\
  0 <= 1 < cols (lower_nodes flat_surface).
Proof.
  exact (trailing_edge_bisector_defined_inv (E:=eigen33) flat_surface 1
           (Vec 1 0 0)%float eq_refl).
Defined.

Lemma defined_at_valid_index {double : Type} {E : Ops double}
    (P : Parameters) (s : LiftingSurface double) (v r : Vector3d double)
    (i : Z) :
  wf_grid (upper_nodes s) = true -> follows_bisector P s ->
  wake_emission_velocity P s v i = Some r ->
  valid_index s i.
Proof.
  intros Hwf Hmode H. apply follows_bisector_test in Hmode.
  unfold wake_emission_velocity in H. rewrite Hmode in H.
  do 2 bind_inv H. clear H.
  destruct (counts_of_wf s Hwf) as [_ Ec].
  pose proof (wf_grid_inv _ Hwf) as (_ & Hc & _).
  unfold valid_index. rewrite Ec.
  unfold prev_node in E0. unfold next_node in E1. rewrite Ec in E1.
  rewrite (to_int_small (cols (upper_nodes s) - 1)) in E1 by lia.
  destruct (0 <? i) eqn:Ei.
  - destruct (i <? cols (upper_nodes s) - 1) eqn:En; [lia |].
    apply coeff_inv in E1. lia.
  - apply coeff_inv in E0. lia.
Qed.

(** With the flag set and at least two chordwise nodes, on a well-formed upper
    node grid, a wake emission velocity that is defined was asked at a valid
    index: outside the span the result is undefined. *)
Theorem wake_emission_defined_index {double : Type} {E : Ops double}
    (P : Parameters) (s : LiftingSurface double) (v r : Vector3d double)
    (i : Z) :
  wf_grid (upper_nodes s) = true -> follows_bisector P s ->
  wake_emission_velocity P s v i = Some r ->
  valid_index s i.
Proof.
  intros Hwf Hmode H. unfold valid_index.
  pose proof (defined_at_valid_index P s v r i Hwf Hmode H) as Hv.
  exact Hv.
Qed.

Lemma wake_emission_defined_index_witness :
  valid_index flat_surface 1.
Proof.
  exact (wake_emission_defined_index (E:=eigen33) bisector_on flat_surface
           probe (Vec (-2) (-0) (-0))%float 1 eq_refl (conj eq_refl eq_refl)
           eq_refl).
Defined.

(** With the flag set and at least two chordwise nodes, on a well-formed
    surface, the wake emission velocity is defined exactly at the valid
    indices: no geometry makes it undefined, the normalizations return what
    Eigen returns. *)
Theorem wake_emission_defined_iff {double : Type} {E : Ops double}
    (P : Parameters) (s : LiftingSurface double) (v : Vector3d double)
    (i : Z) :
  wf_surface s = true -> follows_bisector P s ->
  ((exists r : Vector3d double, wake_emission_velocity P s v i = Some r)
   <-> valid_index s i).
Proof.
  intros Hwf Hmode.
  pose proof (wf_surface_inv s Hwf) as (Hu & _ & _ & _ & Iu & _).
  split.
  - intros [r Hr]. exact (defined_at_valid_index P s v r i Hu Hmode Hr).
  - intros Hi.
    destruct (neighbours_defined s i Hu ltac:(destruct Hmode; lia) Hi)
      as (p & n & Ep & En & Inp & Inn).
    destruct (bisector_defined s i Hwf ltac:(destruct Hmode; lia) Hi)
      as [b Eb].
    destruct (span_direction_defined s p n Iu Inp Inn) as [d Ed].
    apply follows_bisector_test in Hmode.
    unfold wake_emission_velocity. rewrite Hmode, Ep, En, Eb. simpl.
    destruct (negb (p =? n)); [rewrite Ed; simpl |]; eexists; reflexivity.
Qed.

Lemma wake_emission_defined_iff_witness :
  (exists r : Vector3d float,
     wake_emission_velocity (E:=eigen33) bisector_on skew_surface probe 1
     = Some r)
  <-> valid_index skew_surface 1.
Proof.
  apply (wake_emission_defined_iff (E:=eigen33) bisector_on skew_surface
           probe 1).
  - reflexivity.
  - split; reflexivity.
Defined.

(** ** Which branch is taken *)

(** On a surface with at least two spanwise stations whose trailing-edge ids
    are pairwise distinct, the clamped neighbours of every valid index differ,
    also at the two ends of the span: the projection onto the bisector line is
    never taken. *)
Theorem neighbours_differ {double : Type} (s : LiftingSurface double)
    (i : Z) :
  wf_grid (upper_nodes s) = true -> 1 <= n_chordwise_nodes s ->
  2 <= n_spanwise_nodes s -> distinct_trailing_edge s -> valid_index s i ->
  exists p n : Z,
    prev_node s i = Some p /\ next_node s i = Some n /\ p <> n.
Proof.
  intros Hwf Hr Hn Hd Hi.
  destruct (neighbours_defined s i Hwf Hr Hi) as (p & n & Ep & En & _).
  exists p, n. split; [exact Ep |]. split; [exact En |].
  intros ->. destruct (valid_index_int s i Hi) as [Hint Hn0].
  rewrite (prev_node_clamped s i Hint) in Ep.
  rewrite (next_node_clamped s i Hint Hn0) in En.
  assert (Heq : (if 0 <? i then i - 1 else i)
                = (if i <? n_spanwise_nodes s - 1 then i + 1 else i)).
  { apply Hd.
    - unfold valid_index in *. destruct (0 <? i) eqn:Ei; lia.
    - unfold valid_index in *.
      destruct (i <? n_spanwise_nodes s - 1) eqn:Ei; lia.
    - congruence. }
  unfold valid_index in Hi.
  destruct (0 <? i) eqn:E1, (i <? n_spanwise_nodes s - 1) eqn:E2; lia.
Qed.

Lemma flat_distinct : distinct_trailing_edge flat_surface.
Proof.
  intros j k [Hj0 Hj] [Hk0 Hk].
  change (n_spanwise_nodes flat_surface) with 3 in Hj, Hk.
  assert (Hj' : j = 0 \/ j = 1 \/ j = 2) by lia.
  assert (Hk' : k = 0 \/ k = 1 \/ k = 2) by lia.
  destruct Hj' as [-> | [-> | ->]], Hk' as [-> | [-> | ->]];
    intros H; try reflexivity; discriminate H.
Qed.

Lemma neighbours_differ_witness :
  exists p n : Z,
    prev_node flat_surface 0 = Some p /\ next_node flat_surface 0 = Some n /\
    p <> n.
Proof.
  apply (neighbours_differ flat_surface 0).
  - reflexivity.
  - discriminate.
  - discriminate.
  - exact flat_distinct.
  - split; [reflexivity | reflexivity].
Defined.

(** ** Invariance under changes of the frame *)

Section Frames.

Context {double : Type} {E : Ops double}.

Lemma node_translate (t : Vector3d double) (s : LiftingSurface double)
    (id : Z) :
  node (translate t s) id = option_map (fun p => (p + t)%V) (node s id).
Proof.
  unfold node. simpl. destruct (id <? 0); [reflexivity |].
  apply nth_error_map.
Qed.

Lemma node_in (s : LiftingSurface double) (id : Z) (p : Vector3d double) :
  node s id = Some p -> In p (nodes s).
Proof.
  unfold node. destruct (id <? 0); [discriminate |]. apply nth_error_In.
Qed.

Lemma tangent_translate (t : Vector3d double) (s : LiftingSurface double)
    (m : MatrixXi) (i : Z) :
  differences_kept t s ->
  (i1 <- coeff m (rows m - 1) i ;;
   p1 <- node (translate t s) i1 ;;
   i2 <- coeff m (rows m - 2) i ;;
   p2 <- node (translate t s) i2 ;;
   Some (p1 - p2)%V)
  = (i1 <- coeff m (rows m - 1) i ;;
     p1 <- node s i1 ;;
     i2 <- coeff m (rows m - 2) i ;;
     p2 <- node s i2 ;;
     Some (p1 - p2)%V).
Proof.
  intros Hk.
  destruct (coeff m (rows m - 1) i) as [i1 |]; [simpl | reflexivity].
  rewrite node_translate.
  destruct (node s i1) as [p1 |] eqn:N1; [simpl | reflexivity].
  destruct (coeff m (rows m - 2) i) as [i2 |]; [simpl | reflexivity].
  rewrite node_translate.
  destruct (node s i2) as [p2 |] eqn:N2; [simpl | reflexivity].
  f_equal. apply Hk; eapply node_in; eassumption.
Qed.

Lemma bisector_translate (t : Vector3d double) (s : LiftingSurface double)
    (i : Z) :
  differences_kept t s ->
  trailing_edge_bisector (translate t s) i = trailing_edge_bisector s i.
Proof.
  intros Hk. unfold trailing_edge_bisector, upper_tangent, lower_tangent.
  change (upper_nodes (translate t s)) with (upper_nodes s).
  change (lower_nodes (translate t s)) with (lower_nodes s).
  rewrite !(tangent_translate t s _ i Hk). reflexivity.
Qed.

Lemma span_direction_translate (t : Vector3d double)
    (s : LiftingSurface double) (p n : Z) :
  differences_kept t s ->
  span_direction (translate t s) p n = span_direction s p n.
Proof.
  intros Hk. unfold span_direction. rewrite !node_translate.
  destruct (node s n) as [pn |] eqn:Nn; [simpl | reflexivity].
  destruct (node s p) as [pp |] eqn:Np; [simpl | reflexivity].
  f_equal. apply Hk; eapply node_in; eassumption.
Qed.

End Frames.

(** Moving the whole mesh by [t] changes neither the bisector nor the wake
    emission velocity, provided the move keeps the differences of the node
    positions, as it does when no coordinate of a moved node is rounded. *)
Theorem translation_invariance {double : Type} {E : Ops double}
    (t : Vector3d double) (P : Parameters) (s : LiftingSurface double)
    (v : Vector3d double) (i : Z) :
  differences_kept t s ->
  trailing_edge_bisector (translate t s) i = trailing_edge_bisector s i /\
  wake_emission_velocity P (translate t s) v i
  = wake_emission_velocity P s v i.
Proof.
  intros Hk. split; [apply bisector_translate; exact Hk |].
  unfold wake_emission_velocity.
  change (n_chordwise_nodes (translate t s)) with (n_chordwise_nodes s).
  change (prev_node (translate t s) i) with (prev_node s i).
  change (next_node (translate t s) i) with (next_node s i).
  rewrite (bisector_translate t s i Hk).
  destruct (wake_emission_follow_bisector P && (1 <? n_chordwise_nodes s));
    [| reflexivity].
  destruct (prev_node s i) as [p |]; [simpl | reflexivity].
  destruct (next_node s i) as [n |]; [simpl | reflexivity].
  destruct (trailing_edge_bisector s i) as [b |]; [simpl | reflexivity].
  rewrite (span_direction_translate t s p n Hk). reflexivity.
Qed.

Lemma skew_differences_kept :
  differences_kept (E:=eigen33) (Vec 1 2 3)%float skew_surface.
Proof.
  intros p q Hp Hq. simpl in Hp, Hq.
  destruct Hp as [<- | [<- | [<- | [<- | []]]]];
    destruct Hq as [<- | [<- | [<- | [<- | []]]]]; reflexivity.
Qed.

Lemma translation_invariance_witness :
  trailing_edge_bisector (E:=eigen33)
    (translate (E:=eigen33) (Vec 1 2 3)%float skew_surface) 0
  = trailing_edge_bisector (E:=eigen33) skew_surface 0 /\
  wake_emission_velocity (E:=eigen33) bisector_on
    (translate (E:=eigen33) (Vec 1 2 3)%float skew_surface) probe 0
  = wake_emission_velocity (E:=eigen33) bisector_on skew_surface probe 0.
Proof.
  exact (translation_invariance (E:=eigen33) (Vec 1 2 3)%float bisector_on
           skew_surface probe 0 skew_differences_kept).
Defined.

(** The bisector does not tell the upper half from the lower half, in an
    arithmetic in which the sum of two vectors does not depend on their order,
    as in double precision. *)
Theorem bisector_halves_symmetric {double : Type} {E : Ops double}
    (s : LiftingSurface double) (i : Z) :
  add_commutative E ->
  trailing_edge_bisector (swap_halves s) i = trailing_edge_bisector s i.
Proof.
  intros Hc. unfold trailing_edge_bisector.
  change (upper_tangent (swap_halves s) i) with (lower_tangent s i).
  change (lower_tangent (swap_halves s) i) with (upper_tangent s i).
  destruct (upper_tangent s i) as [u |], (lower_tangent s i) as [l |];
    try reflexivity; simpl.
  rewrite (Hc (normalize l) (normalize u)). reflexivity.
Qed.

Lemma bisector_halves_symmetric_witness :
  trailing_edge_bisector (E:=eigen33) (swap_halves corner_surface) 0
  = trailing_edge_bisector (E:=eigen33) corner_surface 0.
Proof.
  exact (bisector_halves_symmetric (E:=eigen33) corner_surface 0
           (binary64_add_commutative LastPair ByNormIfPositive)).
Defined.

(** ** The scenarios of the flat surface, in double precision *)

(** With the flag unset, the emission is the apparent velocity reversed,
    however Eigen evaluates [dot] and [normalize]. *)
Example flat_emission_direct :
  Forall (fun E : Ops float =>
    forall i : Z,
      wake_emission_velocity bisector_off flat_surface downwash i
      = Some (Vec (-0) (-0) 5)%float) variants.
Proof.
  repeat apply Forall_cons; try apply Forall_nil; intros i; reflexivity.
Qed.

(** With the flag set, the bisector is [(1, 0, 0)] at every station; at the
    middle station the neighbours are the nodes 3 and 5, and at the first
    station, where the previous neighbour is clamped to the station itself,
    the nodes 3 and 4; at both the emission keeps only the chordwise part of
    the apparent velocity. *)
Example flat_emission_following :
  Forall (fun E : Ops float =>
    trailing_edge_bisector flat_surface 0 = Some (Vec 1 0 0)%float /\
    trailing_edge_bisector flat_surface 1 = Some (Vec 1 0 0)%float /\
    trailing_edge_bisector flat_surface 2 = Some (Vec 1 0 0)%float /\
    prev_node flat_surface 1 = Some 3 /\ next_node flat_surface 1 = Some 5 /\
    prev_node flat_surface 0 = Some 3 /\ next_node flat_surface 0 = Some 4 /\
    wake_emission_velocity bisector_on flat_surface probe 1
    = Some (Vec (-2) (-0) (-0))%float /\
    wake_emission_velocity bisector_on flat_surface probe 0
    = Some (Vec (-2) (-0) (-0))%float) variants.
Proof.
  repeat apply Forall_cons; try apply Forall_nil; repeat split; reflexivity.
Qed.

(** On the single-station strip the emission is along the bisector. *)
Example strip_emission :
  Forall (fun E : Ops float =>
    wake_emission_velocity bisector_on strip_surface probe 0
    = Some (Vec (-2) (-0) (-0))%float) variants.
Proof.
  repeat apply Forall_cons; try apply Forall_nil; reflexivity.
Qed.
